(** * squangle: rolling averages, client counters, event records and the
      Operation-to-future adapter

    A shallow embedding of
      - squangle/logger/DBEventCounter.cpp
      - squangle/logger/DBEventLogger.h
      - squangle/mysql_client/FutureAdapter.h
    followed by the properties established about them. *)

From Stdlib Require Import Floats ZArith NArith String Ascii List.
From Stdlib Require Import DecimalString DecimalPos DecimalN.
From stdpp Require Import gmap strings list.

(** ** namespace facebook::db *)

Module db.

(** *** ExponentialMovingAverage (DBEventCounter.cpp)

    [double] is IEEE 754 binary64, which is what Rocq's primitive floats
    are; [+], [-] and [*] below are the correctly rounded operations, each
    expression evaluated operation by operation as it is written (no fused
    multiply-add).  The literal [1] in [1 - smoothingFactor_] is the [int]
    one converted to [double]. *)

Section ExponentialMovingAverage.
Local Open Scope float_scope.

Record ExponentialMovingAverage := {
  smoothingFactor_ : float;
  currentValue_ : float;
  hasRegisteredFirstSample_ : bool
}.

(** The constructor's initialiser list only sets [smoothingFactor_].  The
    in-class initialisers of the two other members are in DBEventCounter.h,
    which is not part of the sources at hand: the start value of
    [currentValue_] is a parameter, and [hasRegisteredFirstSample_] starts
    out false (no sample has been added yet). *)
Definition construct (smoothingFactor initialValue : float)
  : ExponentialMovingAverage :=
  {| smoothingFactor_ := smoothingFactor;
     currentValue_ := initialValue;
     hasRegisteredFirstSample_ := false |}.

Definition addSample (sample : float) (e : ExponentialMovingAverage)
  : ExponentialMovingAverage :=
  if hasRegisteredFirstSample_ e then
    {| smoothingFactor_ := smoothingFactor_ e;
       currentValue_ :=
         smoothingFactor_ e * sample + (1 - smoothingFactor_ e) * currentValue_ e;
       hasRegisteredFirstSample_ := hasRegisteredFirstSample_ e |}
  else
    {| smoothingFactor_ := smoothingFactor_ e;
       currentValue_ := sample;
       hasRegisteredFirstSample_ := true |}.

(** A sequence of calls, oldest first. *)
Definition addSamples (samples : list float) (e : ExponentialMovingAverage)
  : ExponentialMovingAverage :=
  fold_left (fun acc x => addSample x acc) samples e.

(** The value of [currentValue_] observed after each call of a sequence. *)
Fixpoint currentValues (samples : list float) (e : ExponentialMovingAverage)
  : list float :=
  match samples with
  | [] => []
  | x :: rest => let e' := addSample x e in currentValue_ e' :: currentValues rest e'
  end.

End ExponentialMovingAverage.

(** *** Enumerations (DBEventLogger.h)

    [enum class FailureReason] has underlying type [int]; a value of the
    type is carried as that integer, so that values outside the four
    enumerators (obtainable by a cast) are representable too. *)

Definition FailureReason := Z.

Definition BAD_USAGE : FailureReason := 0%Z.
Definition TIMEOUT : FailureReason := 1%Z.
Definition CANCELLED : FailureReason := 2%Z.
Definition DATABASE_ERROR : FailureReason := 3%Z.

(** The values that are one of the enumerators. *)
Definition is_enumerator (reason : FailureReason) : Prop :=
  reason = BAD_USAGE ∨ reason = TIMEOUT ∨
  reason = CANCELLED ∨ reason = DATABASE_ERROR.

Inductive OperationType :=
  | None_
  | Query
  | MultiQuery
  | MultiQueryStream
  | Connect
  | PoolConnect
  | Locator
  | TestDatabase.

(** [DBLoggerBase::FailureString]: a switch over the four enumerators, and
    the statement after the switch for everything else. *)
Definition FailureString (reason : FailureReason) : string :=
  if (reason =? BAD_USAGE)%Z then "BadUsage"
  else if (reason =? TIMEOUT)%Z then "Timeout"
  else if (reason =? CANCELLED)%Z then "Cancelled"
  else if (reason =? DATABASE_ERROR)%Z then "DatabaseError"
  else "(should not happen)".

Definition toString (operation_type : OperationType) : string :=
  match operation_type with
  | None_ => "None"
  | Query => "Query"
  | MultiQuery => "MultiQuery"
  | MultiQueryStream => "MultiQueryStream"
  | Connect => "Connect"
  | PoolConnect => "PoolConnect"
  | Locator => "Locator"
  | TestDatabase => "TestDatabase"
  end.

(** *** Event records (DBEventLogger.h)

    [Duration] is a [uint64_t] count of microseconds, [int] a machine
    integer, [std::unordered_map<std::string, std::string>] a finite map. *)

Definition Duration := N.

Record CommonLoggingData := {
  operation_type : OperationType;
  operation_duration : Duration
}.

Record QueryLoggingData := {
  common : CommonLoggingData;
  queries_executed : Z;
  query : string;
  rows_received : Z;
  result_size : N;
  no_index_used : bool;
  query_attributes : gmap string string;
  response_attributes : gmap string string
}.

(** The member initialiser list of the constructor, all nine arguments
    given. *)
Definition QueryLoggingData_ctor
    (op : OperationType) (duration : Duration) (queries : Z)
    (queryString : string) (rows : Z) (resultSize : N) (noIndexUsed : bool)
    (queryAttributes responseAttributes : gmap string string)
  : QueryLoggingData :=
  {| common := {| operation_type := op; operation_duration := duration |};
     queries_executed := queries;
     query := queryString;
     rows_received := rows;
     result_size := resultSize;
     no_index_used := noIndexUsed;
     query_attributes := queryAttributes;
     response_attributes := responseAttributes |}.

(** The four trailing parameters have default arguments; a call site may
    leave out any suffix of them. *)
Inductive TrailingArgs :=
  | Omitted
  | UpToResultSize (resultSize : N)
  | UpToNoIndexUsed (resultSize : N) (noIndexUsed : bool)
  | UpToQueryAttributes (resultSize : N) (noIndexUsed : bool)
      (queryAttributes : gmap string string)
  | AllGiven (resultSize : N) (noIndexUsed : bool)
      (queryAttributes responseAttributes : gmap string string).

Definition default_resultSize : N := 0%N.
Definition default_noIndexUsed : bool := false.
Definition default_queryAttributes : gmap string string := ∅.
Definition default_responseAttributes : gmap string string := ∅.

Definition QueryLoggingData_call
    (op : OperationType) (duration : Duration) (queries : Z)
    (queryString : string) (rows : Z) (trailing : TrailingArgs)
  : QueryLoggingData :=
  match trailing with
  | Omitted =>
      QueryLoggingData_ctor op duration queries queryString rows
        default_resultSize default_noIndexUsed
        default_queryAttributes default_responseAttributes
  | UpToResultSize rs =>
      QueryLoggingData_ctor op duration queries queryString rows
        rs default_noIndexUsed default_queryAttributes default_responseAttributes
  | UpToNoIndexUsed rs ni =>
      QueryLoggingData_ctor op duration queries queryString rows
        rs ni default_queryAttributes default_responseAttributes
  | UpToQueryAttributes rs ni qa =>
      QueryLoggingData_ctor op duration queries queryString rows
        rs ni qa default_responseAttributes
  | AllGiven rs ni qa ra =>
      QueryLoggingData_ctor op duration queries queryString rows rs ni qa ra
  end.

(** *** SimpleDbCounter::printStats (DBEventCounter.cpp) *)

Record SimpleDbCounter := {
  opened_connections_ : N;
  closed_connections_ : N;
  failed_queries_ : N;
  succeeded_queries_ : N;
  reused_ssl_sessions_ : N
}.

(** What a member function of the counter can touch: the object itself and
    the INFO log, one entry per [LOG(INFO)] statement. *)
Record Env := {
  self : SimpleDbCounter;
  info_log : list string
}.

(** Member functions are state transformers over [Env]. *)
Definition M (A : Type) : Type := Env -> A * Env.

Definition ret {A} (a : A) : M A := fun env => (a, env).

Definition bind {A B} (m : M A) (k : A -> M B) : M B :=
  fun env => let '(a, env') := m env in k a env'.

#[global] Instance M_ret : MRet M := @ret.
#[global] Instance M_bind : MBind M := fun A B k m => bind m k.

(** Modelled from the spec: the five read accessors of the counter, declared
    in DBEventCounter.h, which is not part of the sources at hand.  Each one
    returns the current value of its counter. *)
Definition numOpenedConnections : M N :=
  fun env => (opened_connections_ (self env), env).
Definition numClosedConnections : M N :=
  fun env => (closed_connections_ (self env), env).
Definition numFailedQueries : M N :=
  fun env => (failed_queries_ (self env), env).
Definition numSucceededQueries : M N :=
  fun env => (succeeded_queries_ (self env), env).
Definition numReusedSSLSessions : M N :=
  fun env => (reused_ssl_sessions_ (self env), env).

(** [LOG(INFO) << ...]: the streamed text becomes one log entry. *)
Definition LOG_INFO (message : string) : M unit :=
  fun env => (tt, {| self := self env; info_log := info_log env ++ [message] |}).

(** [operator<<] on an unsigned integer: its decimal digits. *)
Definition dec (n : N) : string := NilZero.string_of_uint (N.to_uint n).

Definition newline : ascii := "010"%char.
Definition nl : string := String newline EmptyString.

Definition printStats : M unit :=
  opened ← numOpenedConnections;
  closed ← numClosedConnections;
  failed ← numFailedQueries;
  succeeded ← numSucceededQueries;
  reused ← numReusedSSLSessions;
  LOG_INFO ("Client Stats" +:+ nl
            +:+ "Opened Connections " +:+ dec opened +:+ nl
            +:+ "Closed Connections " +:+ dec closed +:+ nl
            +:+ "Failed Queries " +:+ dec failed +:+ nl
            +:+ "Succeeded Queries " +:+ dec succeeded +:+ nl
            +:+ "Reused SSL Sessions " +:+ dec reused +:+ nl).

(** The lines of a text: the pieces between newline characters; a final
    piece without a newline after it counts when it is not empty. *)
Fixpoint lines (s : string) : list string :=
  match s with
  | EmptyString => []
  | String c rest =>
      if Ascii.eqb c newline then EmptyString :: lines rest
      else match lines rest with
           | [] => [String c EmptyString]
           | l :: ls => String c l :: ls
           end
  end.

Fixpoint no_newline (s : string) : bool :=
  match s with
  | EmptyString => true
  | String c rest => negb (Ascii.eqb c newline) && no_newline rest
  end.

(** *** [toString] on the underlying integer (DBEventLogger.h)

    The values of the enumerators of [OperationType], in the order of their
    declaration, and the switch of [DBLoggerBase::toString] read on the
    underlying [int], with the statement after the switch for a value that
    is none of them. *)

Definition OperationType_value (t : OperationType) : Z :=
  match t with
  | None_ => 0
  | Query => 1
  | MultiQuery => 2
  | MultiQueryStream => 3
  | Connect => 4
  | PoolConnect => 5
  | Locator => 6
  | TestDatabase => 7
  end%Z.

Definition toString_raw (operation_type : Z) : string :=
  if (operation_type =? OperationType_value None_)%Z then "None"
  else if (operation_type =? OperationType_value Query)%Z then "Query"
  else if (operation_type =? OperationType_value MultiQuery)%Z then "MultiQuery"
  else if (operation_type =? OperationType_value MultiQueryStream)%Z
       then "MultiQueryStream"
  else if (operation_type =? OperationType_value Connect)%Z then "Connect"
  else if (operation_type =? OperationType_value PoolConnect)%Z then "PoolConnect"
  else if (operation_type =? OperationType_value Locator)%Z then "Locator"
  else if (operation_type =? OperationType_value TestDatabase)%Z
       then "TestDatabase"
  else "(should not happen)".

(** *** ConnectionContextBase (DBEventLogger.h)

    The data members of the base class, with their default member
    initialisers.  Objects live in a heap and are referred to by address;
    the members are public, so any holder of the address can assign them. *)

Record ConnectionContextBase := {
  isSslConnection : bool;
  sslSessionReused : bool;
  endpointVersion : string
}.

Definition ConnectionContextBase_init : ConnectionContextBase :=
  {| isSslConnection := false;
     sslSessionReused := false;
     endpointVersion := "" |}.

(** [copy]: [std::make_unique<ConnectionContextBase>] allocates a new
    object and copy-constructs it, member by member, from the object [this]
    points to; the result owns the new address.  Calling it through a dangling pointer has
    no defined result. *)
Definition copy (this : positive) (heap : gmap positive ConnectionContextBase)
  : option (positive * gmap positive ConnectionContextBase) :=
  match heap !! this with
  | Some c =>
      let p := fresh (dom heap) in
      Some (p, <[p := {| isSslConnection := isSslConnection c;
                         sslSessionReused := sslSessionReused c;
                         endpointVersion := endpointVersion c |}]> heap)
  | None => None
  end.

(** The text [printStats] streams to the log, as a function of the
    counter. *)
Definition stats_text (c : SimpleDbCounter) : string :=
  "Client Stats" +:+ nl
  +:+ "Opened Connections " +:+ dec (opened_connections_ c) +:+ nl
  +:+ "Closed Connections " +:+ dec (closed_connections_ c) +:+ nl
  +:+ "Failed Queries " +:+ dec (failed_queries_ c) +:+ nl
  +:+ "Succeeded Queries " +:+ dec (succeeded_queries_ c) +:+ nl
  +:+ "Reused SSL Sessions " +:+ dec (reused_ssl_sessions_ c) +:+ nl.

End db.

(** ** namespace facebook::common::mysql_client (FutureAdapter.h)

    FutureAdapter.h declares the adapters; their bodies (FutureAdapter.cpp)
    and the Operation classes (Operation.h) are not part of the sources at
    hand.  The section below follows the specification's description of the
    Operation contract and of the adapter algorithm. *)

Module mysql_client.
Import db.

Section Adapter.
Context {Result : Type}.

(** Modelled from the spec: the terminal outcome of an Operation, absent
    with Operation.h: success with a payload, failure with a reason and a
    diagnostic message, or cancellation. *)
Inductive Outcome :=
  | Success (payload : Result)
  | Failure (reason : FailureReason) (message : string)
  | Cancellation (message : string).

(** What a future settles with: a value or a typed error. *)
Inductive Try :=
  | Value (v : Result)
  | Error (reason : FailureReason) (message : string).

(** Modelled from the spec: step 4 of the adapter algorithm, absent with
    FutureAdapter.cpp: success fulfils with the payload, failure and
    cancellation with a typed error; cancellation carries [CANCELLED]. *)
Definition settle (o : Outcome) : Try :=
  match o with
  | Success v => Value v
  | Failure reason message => Error reason message
  | Cancellation message => Error CANCELLED message
  end.

(** The state shared by a promise and its future.  [fulfilments] counts
    how often the promise half has been fulfilled. *)
Record Core := {
  settled : option Try;
  fulfilments : nat
}.

Definition pending : Core := {| settled := None; fulfilments := 0 |}.

Definition fulfil (t : Try) (c : Core) : Core :=
  {| settled := match settled c with
                | None => Some t
                | Some first => Some first
                end;
     fulfilments := S (fulfilments c) |}.

(** The completion observer the adapter attaches: a closure that has
    captured the promise (by its index in the store) and one strong
    reference to the Operation. *)
Record Observer := { promise : nat }.

(** Modelled from the spec: an Operation, absent with Operation.h: pending
    or completed with a stored outcome, the observers attached so far, and
    the strong references to it. *)
Record Operation := {
  terminal : option Outcome;
  observers : list Observer;
  strong_refs : nat
}.

Record World := {
  operation : Operation;
  cores : gmap nat Core;
  next_core : nat
}.

Definition fresh (refs : nat) : World :=
  {| operation := {| terminal := None; observers := []; strong_refs := refs |};
     cores := ∅;
     next_core := 0 |}.

Definition acquire (w : World) : World :=
  {| operation := {| terminal := terminal (operation w);
                     observers := observers (operation w);
                     strong_refs := S (strong_refs (operation w)) |};
     cores := cores w;
     next_core := next_core w |}.

(** Running the observer: fulfil the captured promise, then let go of the
    captured reference. *)
Definition invoke (o : Outcome) (w : World) (ob : Observer) : World :=
  {| operation := {| terminal := terminal (operation w);
                     observers := observers (operation w);
                     strong_refs := Nat.pred (strong_refs (operation w)) |};
     cores := alter (fulfil (settle o)) (promise ob) (cores w);
     next_core := next_core w |}.

(** Modelled from the spec: attaching an observer, absent with Operation.h.
    On a completed Operation the stored outcome is delivered at once. *)
Definition attach (ob : Observer) (w : World) : World :=
  match terminal (operation w) with
  | Some o => invoke o w ob
  | None =>
      {| operation := {| terminal := None;
                         observers := observers (operation w) ++ [ob];
                         strong_refs := strong_refs (operation w) |};
         cores := cores w;
         next_core := next_core w |}
  end.

(** Modelled from the spec: the engine signalling a terminal outcome, absent
    with Operation.h.  Only the first signal counts; it is stored and
    delivered to every attached observer. *)
Definition complete (o : Outcome) (w : World) : World :=
  match terminal (operation w) with
  | Some _ => w
  | None =>
      fold_left (invoke o)
        (observers (operation w))
        {| operation := {| terminal := Some o;
                           observers := [];
                           strong_refs := strong_refs (operation w) |};
           cores := cores w;
           next_core := next_core w |}
  end.

Record SemiFuture := { semi_core : nat }.
Record Future := { core : nat }.

(** The two kinds of overload: a [shared_ptr] to the Operation, whose
    reference the caller has already taken, or a plain pointer. *)
Inductive Handle := Owning | Raw.

(** Modelled from the spec: steps 1 to 3 of the adapter algorithm, absent
    with FutureAdapter.cpp: make the promise, make sure a strong reference
    is held, attach the observer, hand out the future. *)
Definition toSemiFuture (h : Handle) (w : World) : SemiFuture * World :=
  let p := next_core w in
  let w1 := {| operation := operation w;
               cores := <[p := pending]> (cores w);
               next_core := S p |} in
  let w2 := match h with
            | Owning => w1
            | Raw => acquire w1
            end in
  ({| semi_core := p |}, attach {| promise := p |} w2).

(** Modelled from the spec: the pass-through overloads, absent with
    FutureAdapter.cpp: the future takes over the state of the semi-future. *)
Definition toFuture_semi (fut : SemiFuture) : Future :=
  {| core := semi_core fut |}.

Definition toFuture (h : Handle) (w : World) : Future * World :=
  let '(fut, w') := toSemiFuture h w in (toFuture_semi fut, w').

(** Observing a future. *)
Definition poll_semi (w : World) (fut : SemiFuture) : option Try :=
  cores w !! semi_core fut ≫= settled.

Definition poll (w : World) (fut : Future) : option Try :=
  cores w !! core fut ≫= settled.

Definition fulfilled_times (w : World) (fut : Future) : option nat :=
  fulfilments <$> cores w !! core fut.

(** What happens around one Operation: calls of the adapter and terminal
    signals of the engine, in any order. *)
Inductive Event :=
  | Adapt (h : Handle)
  | Signal (o : Outcome).

Definition step (w : World) (e : Event) : World :=
  match e with
  | Adapt h => snd (toSemiFuture h w)
  | Signal o => complete o w
  end.

Definition run (tr : list Event) (w : World) : World := fold_left step tr w.

(** The outcome of the first terminal signal of a trace, if it has one. *)
Fixpoint first_signal (tr : list Event) : option Outcome :=
  match tr with
  | [] => None
  | Signal o :: _ => Some o
  | Adapt _ :: rest => first_signal rest
  end.

(** The state every handed-out core is in, given the Operation's state. *)
Definition expected (op : Operation) : Core :=
  match terminal op with
  | None => pending
  | Some o => {| settled := Some (settle o); fulfilments := 1 |}
  end.

Definition consistent (w : World) : Prop :=
  (∀ p, p < next_core w → cores w !! p = Some (expected (operation w))) ∧
  (∀ p, next_core w ≤ p → cores w !! p = None) ∧
  match terminal (operation w) with
  | None => promise <$> observers (operation w) = seq 0 (next_core w)
  | Some _ => observers (operation w) = []
  end.

End Adapter.

Arguments Outcome : clear implicits.
Arguments Try : clear implicits.
Arguments Core : clear implicits.
Arguments Operation : clear implicits.
Arguments World : clear implicits.
Arguments Event : clear implicits.

End mysql_client.

(** ** Completions running side by side

    The bodies of the counter's increment operations (DBEventCounter.h) and
    of the logger that calls them (DBEventLogger.cpp) are not part of the
    sources at hand.  Threads are modelled at the level of single memory
    operations on the counters of a [SimpleDbCounter], and a schedule
    chooses which thread takes the next step. *)

Module workers.
Import db.

Inductive CounterKind :=
  | OpenedConnections
  | ClosedConnections
  | FailedQueries
  | SucceededQueries
  | ReusedSSLSessions.

#[global] Instance CounterKind_eq_dec : EqDecision CounterKind.
Proof. solve_decision. Defined.

Definition read (k : CounterKind) (c : SimpleDbCounter) : N :=
  match k with
  | OpenedConnections => opened_connections_ c
  | ClosedConnections => closed_connections_ c
  | FailedQueries => failed_queries_ c
  | SucceededQueries => succeeded_queries_ c
  | ReusedSSLSessions => reused_ssl_sessions_ c
  end.

Definition write (k : CounterKind) (v : N) (c : SimpleDbCounter)
  : SimpleDbCounter :=
  {| opened_connections_ :=
       if decide (k = OpenedConnections) then v else opened_connections_ c;
     closed_connections_ :=
       if decide (k = ClosedConnections) then v else closed_connections_ c;
     failed_queries_ :=
       if decide (k = FailedQueries) then v else failed_queries_ c;
     succeeded_queries_ :=
       if decide (k = SucceededQueries) then v else succeeded_queries_ c;
     reused_ssl_sessions_ :=
       if decide (k = ReusedSSLSessions) then v else reused_ssl_sessions_ c |}.

(** One indivisible memory operation.  [FetchAdd] is the atomic increment;
    [Load] and [StoreSucc] are the two halves of an increment that is not
    atomic: read into the thread's register, write the register plus one. *)
Inductive Instr :=
  | FetchAdd (k : CounterKind)
  | Load (k : CounterKind)
  | StoreSucc (k : CounterKind).

Record Thread := {
  code : list Instr;
  reg : N
}.

Definition exec (i : Instr) (r : N) (c : SimpleDbCounter)
  : N * SimpleDbCounter :=
  match i with
  | FetchAdd k => (read k c, write k (read k c + 1)%N c)
  | Load k => (read k c, c)
  | StoreSucc k => (r, write k (r + 1)%N c)
  end.

Definition State : Type := SimpleDbCounter * list Thread.

(** Thread [tid] takes its next step; a thread that has finished, or a
    thread that does not exist, leaves the state as it is. *)
Definition step (st : State) (tid : nat) : State :=
  match st.2 !! tid with
  | Some t =>
      match code t with
      | i :: rest =>
          let '(r', c') := exec i (reg t) st.1 in
          (c', <[tid := {| code := rest; reg := r' |}]> st.2)
      | [] => st
      end
  | None => st
  end.

Definition run (schedule : list nat) (st : State) : State :=
  fold_left step schedule st.

Definition finished (pool : list Thread) : bool :=
  forallb (fun t => match code t with [] => true | _ => false end) pool.

(** Modelled from the spec: what the completion of one Operation does to
    the counters, absent with DBEventLogger.cpp and DBEventCounter.h: one
    atomic increment of the counter of its kind. *)
Definition completion (k : CounterKind) : Thread :=
  {| code := [FetchAdd k]; reg := 0%N |}.

(** The same increment written as a read followed by a write. *)
Definition racy_completion (k : CounterKind) : Thread :=
  {| code := [Load k; StoreSucc k]; reg := 0%N |}.

Definition zero : SimpleDbCounter :=
  {| opened_connections_ := 0; closed_connections_ := 0; failed_queries_ := 0;
     succeeded_queries_ := 0; reused_ssl_sessions_ := 0 |}%N.

(** How many increments of counter [k] a thread, or a pool, still has to
    make. *)
Definition is_inc (k : CounterKind) (i : Instr) : bool :=
  match i with
  | FetchAdd k' => bool_decide (k' = k)
  | _ => false
  end.

Definition owed (k : CounterKind) (t : Thread) : nat :=
  length (filter (fun i => is_inc k i = true) (code t)).

Definition owed_all (k : CounterKind) (pool : list Thread) : nat :=
  sum_list_with (owed k) pool.

Definition atomic_only (t : Thread) : Prop :=
  Forall (fun i => ∃ k, i = FetchAdd k) (code t).

Definition occurrences (k : CounterKind) (ks : list CounterKind) : nat :=
  length (filter (fun k' => k' = k) ks).

End workers.

(** * Properties *)

(** ** ExponentialMovingAverage *)

Section EMA_facts.
Import db.
Local Open Scope float_scope.

Lemma addSample_seeded (x : float) (e : ExponentialMovingAverage) :
  hasRegisteredFirstSample_ e = true →
  addSample x e =
    {| smoothingFactor_ := smoothingFactor_ e;
       currentValue_ :=
         smoothingFactor_ e * x + (1 - smoothingFactor_ e) * currentValue_ e;
       hasRegisteredFirstSample_ := true |}.
Proof. unfold addSample. intros ->. reflexivity. Qed.

Lemma addSample_unseeded (x : float) (e : ExponentialMovingAverage) :
  hasRegisteredFirstSample_ e = false →
  addSample x e =
    {| smoothingFactor_ := smoothingFactor_ e;
       currentValue_ := x;
       hasRegisteredFirstSample_ := true |}.
Proof. unfold addSample. intros ->. reflexivity. Qed.

Lemma addSample_smoothingFactor (x : float) (e : ExponentialMovingAverage) :
  smoothingFactor_ (addSample x e) = smoothingFactor_ e.
Proof. unfold addSample. destruct (hasRegisteredFirstSample_ e); reflexivity. Qed.

Lemma addSample_marks (x : float) (e : ExponentialMovingAverage) :
  hasRegisteredFirstSample_ (addSample x e) = true.
Proof.
  unfold addSample.
  destruct (hasRegisteredFirstSample_ e) eqn:Hseeded; simpl; auto.
Qed.

Lemma addSamples_snoc (xs : list float) (x : float) (e : ExponentialMovingAverage) :
  addSamples (xs ++ [x]) e = addSample x (addSamples xs e).
Proof. unfold addSamples. rewrite fold_left_app. reflexivity. Qed.

Lemma addSamples_keeps (xs : list float) (e : ExponentialMovingAverage) :
  hasRegisteredFirstSample_ e = true →
  hasRegisteredFirstSample_ (addSamples xs e) = true ∧
  smoothingFactor_ (addSamples xs e) = smoothingFactor_ e.
Proof.
  induction xs as [|x xs IH] using rev_ind; intros Hseeded.
  - split; [exact Hseeded | reflexivity].
  - rewrite addSamples_snoc, addSample_marks, addSample_smoothingFactor.
    split; [reflexivity | apply IH, Hseeded].
Qed.

(** C1: on an accumulator constructed with smoothing factor [alpha], the
    first [addSample x] sets [currentValue_] to exactly [x] and marks the
    accumulator as seeded; after any further samples [later], the next
    [addSample y] sets [currentValue_] to
    [alpha * y + (1 - alpha) * currentValue_] (in [double] arithmetic) and
    leaves it seeded.  With [alpha = 0.5] and the samples 10, 20, 30 the
    successive values of [currentValue_] are 10, 15 and 22.5. *)
Theorem addSample_first_seeds_then_blends
    (alpha init x : float) (later : list float) (y : float) :
  let e1 := addSample x (construct alpha init) in
  let e := addSamples later e1 in
  currentValue_ e1 = x ∧
  hasRegisteredFirstSample_ e1 = true ∧
  currentValue_ (addSample y e) = alpha * y + (1 - alpha) * currentValue_ e ∧
  hasRegisteredFirstSample_ (addSample y e) = true ∧
  currentValues [10; 20; 30] (construct 0.5 init) = [10; 15; 22.5].
Proof.
  intros e1 e.
  assert (Hfirst : hasRegisteredFirstSample_ e1 = true) by reflexivity.
  destruct (addSamples_keeps later e1 Hfirst) as [Hflag Halpha].
  fold e in Hflag, Halpha.
  repeat split.
  - rewrite (addSample_seeded y e Hflag). simpl.
    rewrite Halpha. reflexivity.
  - apply addSample_marks.
Qed.

End EMA_facts.

(** ** FailureString *)

Section FailureString_facts.
Import db.
Local Open Scope Z_scope.

Lemma FailureString_outside (reason : FailureReason) :
  ¬ is_enumerator reason → FailureString reason = "(should not happen)".
Proof.
  unfold is_enumerator, FailureString. intros Hout.
  destruct (Z.eqb_spec reason BAD_USAGE); [tauto|].
  destruct (Z.eqb_spec reason TIMEOUT); [tauto|].
  destruct (Z.eqb_spec reason CANCELLED); [tauto|].
  destruct (Z.eqb_spec reason DATABASE_ERROR); [tauto|].
  reflexivity.
Qed.

Lemma FailureString_sentinel_iff (reason : FailureReason) :
  FailureString reason = "(should not happen)" ↔ ¬ is_enumerator reason.
Proof.
  split; [|apply FailureString_outside].
  intros Hs [-> | [-> | [-> | ->]]]; discriminate Hs.
Qed.

(** C5: [FailureString] is a function defined on every value of
    [FailureReason]: it sends BAD_USAGE to "BadUsage", TIMEOUT to "Timeout",
    CANCELLED to "Cancelled", DATABASE_ERROR to "DatabaseError", and every
    value that is none of the four enumerators to the sentinel string
    "(should not happen)"; it has a result for every input. *)
Theorem FailureString_total_mapping (reason : FailureReason) :
  FailureString BAD_USAGE = "BadUsage" ∧
  FailureString TIMEOUT = "Timeout" ∧
  FailureString CANCELLED = "Cancelled" ∧
  FailureString DATABASE_ERROR = "DatabaseError" ∧
  (¬ is_enumerator reason → FailureString reason = "(should not happen)") ∧
  (∃ s : string, FailureString reason = s ∧ s ≠ ""%string).
Proof.
  repeat split.
  - apply FailureString_outside.
  - exists (FailureString reason). split; [reflexivity|].
    unfold FailureString.
    repeat match goal with |- context [if ?b then _ else _] => destruct b end;
      discriminate.
Qed.

Lemma FailureString_total_mapping_witness :
  ¬ is_enumerator 7 ∧ FailureString 7 = "(should not happen)".
Proof.
  assert (Hout : ¬ is_enumerator 7).
  { unfold is_enumerator, BAD_USAGE, TIMEOUT, CANCELLED, DATABASE_ERROR. lia. }
  split; [exact Hout|].
  exact (proj1 (proj2 (proj2 (proj2 (proj2 (FailureString_total_mapping 7))))) Hout).
Defined.

End FailureString_facts.

(** ** QueryLoggingData *)

Section QueryLoggingData_facts.
Import db.

(** C10: the constructor of [QueryLoggingData] stores every argument
    unchanged in the field that belongs to it, and a call that leaves out
    the optional arguments gets [result_size = 0], [no_index_used = false]
    and empty [query_attributes] and [response_attributes]. *)
Theorem QueryLoggingData_ctor_stores_arguments
    (op : OperationType) (duration : Duration) (queries : Z)
    (queryString : string) (rows : Z) (resultSize : N) (noIndexUsed : bool)
    (queryAttributes responseAttributes : gmap string string) :
  let full := QueryLoggingData_call op duration queries queryString rows
                (AllGiven resultSize noIndexUsed queryAttributes responseAttributes) in
  let short := QueryLoggingData_call op duration queries queryString rows Omitted in
  (operation_type (common full) = op ∧
   operation_duration (common full) = duration ∧
   queries_executed full = queries ∧
   query full = queryString ∧
   rows_received full = rows ∧
   result_size full = resultSize ∧
   no_index_used full = noIndexUsed ∧
   query_attributes full = queryAttributes ∧
   response_attributes full = responseAttributes) ∧
  (operation_type (common short) = op ∧
   operation_duration (common short) = duration ∧
   queries_executed short = queries ∧
   query short = queryString ∧
   rows_received short = rows ∧
   result_size short = 0%N ∧
   no_index_used short = false ∧
   query_attributes short = ∅ ∧
   response_attributes short = ∅ ∧
   (∀ key, query_attributes short !! key = None) ∧
   (∀ key, response_attributes short !! key = None)).
Proof.
  intros full short. subst full short.
  unfold QueryLoggingData_call, QueryLoggingData_ctor; simpl.
  repeat split; try reflexivity.
Qed.

(** Leaving out only some of the optional arguments gives the defaults for
    the ones left out. *)
Lemma QueryLoggingData_partial_defaults
    (op : OperationType) (duration : Duration) (queries : Z)
    (queryString : string) (rows : Z) (resultSize : N) (noIndexUsed : bool)
    (queryAttributes : gmap string string) :
  QueryLoggingData_call op duration queries queryString rows
    (UpToResultSize resultSize)
  = QueryLoggingData_ctor op duration queries queryString rows
      resultSize false ∅ ∅ ∧
  QueryLoggingData_call op duration queries queryString rows
    (UpToNoIndexUsed resultSize noIndexUsed)
  = QueryLoggingData_ctor op duration queries queryString rows
      resultSize noIndexUsed ∅ ∅ ∧
  QueryLoggingData_call op duration queries queryString rows
    (UpToQueryAttributes resultSize noIndexUsed queryAttributes)
  = QueryLoggingData_ctor op duration queries queryString rows
      resultSize noIndexUsed queryAttributes ∅.
Proof. repeat split. Qed.

End QueryLoggingData_facts.

(** ** SimpleDbCounter::printStats *)

Section printStats_facts.
Import db.

Lemma no_newline_app (s t : string) :
  no_newline (s +:+ t) = no_newline s && no_newline t.
Proof.
  induction s as [|c s IH]; simpl; [reflexivity|].
  rewrite IH. apply andb_assoc.
Qed.

Lemma lines_terminated (s t : string) :
  no_newline s = true → lines (s +:+ nl +:+ t) = s :: lines t.
Proof.
  induction s as [|c s IH]; simpl; intros Hs.
  - reflexivity.
  - apply andb_prop in Hs as [Hc Hs].
    apply negb_true_iff in Hc. rewrite Hc.
    rewrite (IH Hs). reflexivity.
Qed.

Lemma no_newline_digits (d : Decimal.uint) :
  no_newline (NilEmpty.string_of_uint d) = true.
Proof. induction d; simpl; auto. Qed.

Lemma no_newline_dec (n : N) : no_newline (dec n) = true.
Proof.
  unfold dec, NilZero.string_of_uint.
  destruct (N.to_uint n); try reflexivity; apply no_newline_digits.
Qed.

Lemma no_newline_counter_line (label : string) (n : N) :
  no_newline label = true → no_newline (label +:+ dec n) = true.
Proof. intros Hl. rewrite no_newline_app, Hl, no_newline_dec. reflexivity. Qed.

Lemma to_uint_nonnil (n : N) : N.to_uint n ≠ Decimal.Nil.
Proof.
  destruct n as [|p]; [discriminate|].
  apply DecimalPos.Unsigned.to_uint_nonnil.
Qed.

(** The decimal rendering determines the number. *)
Lemma dec_inj (m n : N) : dec m = dec n → m = n.
Proof.
  unfold dec. intros Heq.
  apply (f_equal NilZero.uint_of_string) in Heq.
  rewrite !NilZero.usu in Heq by apply to_uint_nonnil.
  injection Heq as Heq.
  now apply DecimalN.Unsigned.to_uint_inj.
Qed.

Lemma append_assoc (s t u : string) : (s +:+ t) +:+ u = s +:+ t +:+ u.
Proof.
  induction s as [|c s IH]; [reflexivity|].
  change (String c ((s +:+ t) +:+ u) = String c (s +:+ t +:+ u)).
  now rewrite IH.
Qed.

Lemma lines_counter_line (label : string) (n : N) (rest : string) :
  no_newline label = true →
  lines (label +:+ dec n +:+ nl +:+ rest) = (label +:+ dec n) :: lines rest.
Proof.
  intros Hl.
  rewrite <- append_assoc.
  apply lines_terminated, no_newline_counter_line, Hl.
Qed.

Lemma lines_last_counter_line (label : string) (n : N) :
  no_newline label = true →
  lines (label +:+ dec n +:+ nl) = [label +:+ dec n].
Proof.
  intros Hl.
  change nl with (nl +:+ "").
  rewrite lines_counter_line by exact Hl. reflexivity.
Qed.

(** C6: whatever the counters hold, [printStats] logs one report.  After
    its heading line the report has, in this order, one line for each of the
    five counters (opened connections, closed connections, failed queries,
    succeeded queries, reused SSL sessions), each line being the counter's
    label, a space, and the counter's value in decimal; it has no other
    lines. *)
Theorem printStats_report_lines (env : Env) :
  ∃ report : string,
    info_log (printStats env).2 = info_log env ++ [report] ∧
    lines report =
      [ "Client Stats";
        "Opened Connections " +:+ dec (opened_connections_ (self env));
        "Closed Connections " +:+ dec (closed_connections_ (self env));
        "Failed Queries " +:+ dec (failed_queries_ (self env));
        "Succeeded Queries " +:+ dec (succeeded_queries_ (self env));
        "Reused SSL Sessions " +:+ dec (reused_ssl_sessions_ (self env)) ].
Proof.
  exists ("Client Stats" +:+ nl
          +:+ "Opened Connections " +:+ dec (opened_connections_ (self env)) +:+ nl
          +:+ "Closed Connections " +:+ dec (closed_connections_ (self env)) +:+ nl
          +:+ "Failed Queries " +:+ dec (failed_queries_ (self env)) +:+ nl
          +:+ "Succeeded Queries " +:+ dec (succeeded_queries_ (self env)) +:+ nl
          +:+ "Reused SSL Sessions " +:+ dec (reused_ssl_sessions_ (self env)) +:+ nl).
  split; [reflexivity|].
  rewrite (lines_terminated "Client Stats") by reflexivity.
  rewrite !lines_counter_line by reflexivity.
  rewrite lines_last_counter_line by reflexivity.
  reflexivity.
Qed.

(** C9: [printStats] leaves the counter as it found it: the object is the
    same afterwards, and so is what each of the five accessors returns. *)
Theorem printStats_keeps_counters (env : Env) :
  let env' := (printStats env).2 in
  self env' = self env ∧
  (numOpenedConnections env').1 = (numOpenedConnections env).1 ∧
  (numClosedConnections env').1 = (numClosedConnections env).1 ∧
  (numFailedQueries env').1 = (numFailedQueries env).1 ∧
  (numSucceededQueries env').1 = (numSucceededQueries env).1 ∧
  (numReusedSSLSessions env').1 = (numReusedSSLSessions env).1.
Proof.
  assert (Hself : self (printStats env).2 = self env).
  { unfold printStats, mbind, M_bind, bind. simpl. reflexivity. }
  intros env'. subst env'.
  unfold numOpenedConnections, numClosedConnections, numFailedQueries,
    numSucceededQueries, numReusedSSLSessions; simpl fst.
  rewrite Hself. repeat split.
Qed.

Example printStats_sample :
  let c := {| opened_connections_ := 12; closed_connections_ := 7;
              failed_queries_ := 0; succeeded_queries_ := 340;
              reused_ssl_sessions_ := 5 |}%N in
  (printStats {| self := c; info_log := [] |}).2 =
    {| self := c;
       info_log :=
         [ "Client Stats" +:+ nl +:+
           "Opened Connections 12" +:+ nl +:+
           "Closed Connections 7" +:+ nl +:+
           "Failed Queries 0" +:+ nl +:+
           "Succeeded Queries 340" +:+ nl +:+
           "Reused SSL Sessions 5" +:+ nl ] |}.
Proof. reflexivity. Qed.

End printStats_facts.

(** ** The Operation-to-future adapter *)

Section Adapter_facts.
Import db mysql_client.
Context {Result : Type}.
Implicit Types (w : World Result) (o : Outcome Result) (e : Event Result).
Implicit Types (tr : list (Event Result)) (ob : Observer).

Lemma consistent_fresh (refs : nat) : consistent (fresh (Result := Result) refs).
Proof.
  split; [|split]; simpl.
  - intros p Hp. lia.
  - intros p _. apply lookup_empty.
  - reflexivity.
Qed.

(** Delivering an outcome to a list of observers touches nothing but the
    cores and the reference count. *)
Lemma deliver_frame o (obs : list Observer) w :
  terminal (operation (fold_left (invoke o) obs w)) = terminal (operation w) ∧
  observers (operation (fold_left (invoke o) obs w)) = observers (operation w) ∧
  next_core (fold_left (invoke o) obs w) = next_core w.
Proof.
  revert w. induction obs as [|ob obs IH]; intros w; simpl; [auto|].
  destruct (IH (invoke o w ob)) as (-> & -> & ->). auto.
Qed.

Lemma deliver_lookup o (obs : list Observer) w (p : nat) :
  NoDup (promise <$> obs) →
  cores (fold_left (invoke o) obs w) !! p =
    if decide (p ∈ promise <$> obs)
    then fulfil (settle o) <$> cores w !! p
    else cores w !! p.
Proof.
  revert w. induction obs as [|ob obs IH]; intros w Hnd.
  - rewrite decide_False by apply not_elem_of_nil. reflexivity.
  - rewrite fmap_cons in Hnd |- *. change (fold_left (invoke o) (ob :: obs) w)
      with (fold_left (invoke o) obs (invoke o w ob)). apply NoDup_cons in Hnd as [Hfresh Hnd].
    rewrite (IH _ Hnd). simpl.
    destruct (decide (p = promise ob)) as [->|Hne].
    + rewrite decide_False by exact Hfresh.
      rewrite decide_True by apply list_elem_of_here.
      apply lookup_alter_eq.
    + rewrite lookup_alter_ne by congruence.
      destruct (decide (p ∈ promise <$> obs)) as [Hin|Hout].
      * rewrite decide_True by (apply list_elem_of_further, Hin). reflexivity.
      * rewrite decide_False; [reflexivity|].
        intros Hin. apply elem_of_cons in Hin as [?|?]; tauto.
Qed.

Lemma consistent_complete o w : consistent w → consistent (complete o w).
Proof.
  intros (Hin & Hout & Hobs). unfold complete.
  destruct (terminal (operation w)) as [o0|] eqn:Hterm.
  - unfold consistent. rewrite Hterm. auto.
  - set (w0 := {| operation := _ |}).
    destruct (deliver_frame o (observers (operation w)) w0) as (Ht & Ho & Hn).
    assert (Hnd : NoDup (promise <$> observers (operation w))).
    { rewrite Hobs. apply NoDup_seq. }
    unfold consistent. rewrite Ht, Ho, Hn. simpl.
    split; [|split; [|reflexivity]].
    + intros p Hp. rewrite (deliver_lookup _ _ _ _ Hnd). simpl.
      rewrite decide_True.
      * rewrite (Hin p Hp). unfold expected. rewrite Ht, Hterm. reflexivity.
      * rewrite Hobs. apply elem_of_seq. lia.
    + intros p Hp. rewrite (deliver_lookup _ _ _ _ Hnd). simpl.
      rewrite decide_False; [apply Hout, Hp|].
      rewrite Hobs. rewrite elem_of_seq. lia.
Qed.

Lemma consistent_toSemiFuture (h : Handle) w :
  consistent w → consistent (toSemiFuture h w).2.
Proof.
  intros (Hin & Hout & Hobs).
  unfold toSemiFuture, attach; simpl.
  assert (Hterm : ∀ w1 : World Result,
            terminal (operation (match h with Owning => w1 | Raw => acquire w1 end))
            = terminal (operation w1)) by (intros; destruct h; reflexivity).
  rewrite Hterm; simpl.
  destruct (terminal (operation w)) as [o|] eqn:Ht.
  - unfold consistent, expected; destruct h; simpl; rewrite Ht;
      (split; [|split; [|exact Hobs]]).
    all: intros p Hp.
    all: try (destruct (decide (p = next_core w)) as [->|Hne];
      [rewrite lookup_alter_eq, lookup_insert_eq; reflexivity
      |rewrite lookup_alter_ne, lookup_insert_ne by congruence;
       rewrite Hin by lia; unfold expected; rewrite Ht; reflexivity]).
    all: rewrite lookup_alter_ne, lookup_insert_ne by lia; apply Hout; lia.
  - unfold consistent, expected; destruct h; simpl;
      (split; [|split]).
    all: try (intros p Hp; destruct (decide (p = next_core w)) as [->|Hne];
      [rewrite lookup_insert_eq; reflexivity
      |rewrite lookup_insert_ne by congruence;
       rewrite Hin by lia; unfold expected; rewrite Ht; reflexivity]).
    all: try (intros p Hp; rewrite lookup_insert_ne by lia; apply Hout; lia).
    all: change (0 :: seq 1 (next_core w)) with (seq 0 (S (next_core w)));
      rewrite fmap_app, Hobs, seq_S; reflexivity.
Qed.

Lemma consistent_step w e : consistent w → consistent (step w e).
Proof.
  destruct e as [h|o]; simpl.
  - apply consistent_toSemiFuture.
  - apply consistent_complete.
Qed.

Lemma consistent_run tr w : consistent w → consistent (run tr w).
Proof.
  revert w. induction tr as [|e tr IH]; intros w Hw; simpl; [exact Hw|].
  apply IH, consistent_step, Hw.
Qed.

Lemma terminal_complete o w :
  terminal (operation (complete o w)) =
    match terminal (operation w) with
    | Some first => Some first
    | None => Some o
    end.
Proof.
  unfold complete. destruct (terminal (operation w)) eqn:Ht; [exact Ht|].
  destruct (deliver_frame o (observers (operation w))
    {| operation := {| terminal := Some o; observers := [];
                       strong_refs := strong_refs (operation w) |};
       cores := cores w; next_core := next_core w |}) as (-> & _).
  reflexivity.
Qed.

Lemma terminal_toSemiFuture (h : Handle) w :
  terminal (operation (toSemiFuture h w).2) = terminal (operation w).
Proof.
  unfold toSemiFuture, attach; destruct h; simpl;
    destruct (terminal (operation w)) eqn:Ht; simpl; auto.
Qed.

Lemma next_core_complete o w : next_core (complete o w) = next_core w.
Proof.
  unfold complete. destruct (terminal (operation w)); [reflexivity|].
  destruct (deliver_frame o (observers (operation w))
    {| operation := {| terminal := Some o; observers := [];
                       strong_refs := strong_refs (operation w) |};
       cores := cores w; next_core := next_core w |}) as (_ & _ & ->).
  reflexivity.
Qed.

Lemma next_core_toSemiFuture (h : Handle) w :
  next_core (toSemiFuture h w).2 = S (next_core w).
Proof.
  unfold toSemiFuture, attach; destruct h; simpl;
    destruct (terminal (operation w)); reflexivity.
Qed.

Lemma next_core_run tr w : next_core w ≤ next_core (run tr w).
Proof.
  revert w. induction tr as [|e tr IH]; intros w; [reflexivity|].
  change (run (e :: tr) w) with (run tr (step w e)).
  etrans; [|apply IH].
  destruct e as [h|o].
  - change (step w (Adapt h)) with (toSemiFuture h w).2.
    rewrite next_core_toSemiFuture. lia.
  - change (step w (Signal o)) with (complete o w).
    rewrite next_core_complete. lia.
Qed.

Lemma terminal_run tr w :
  terminal (operation (run tr w)) =
    match terminal (operation w) with
    | Some first => Some first
    | None => first_signal tr
    end.
Proof.
  revert w. induction tr as [|e tr IH]; intros w.
  - simpl. destruct (terminal (operation w)); reflexivity.
  - change (run (e :: tr) w) with (run tr (step w e)).
    rewrite IH. destruct e as [h|o].
    + change (step w (Adapt h)) with (toSemiFuture h w).2.
      rewrite terminal_toSemiFuture. reflexivity.
    + change (step w (Signal o)) with (complete o w).
      rewrite terminal_complete. destruct (terminal (operation w)); reflexivity.
Qed.

Lemma first_signal_app tr1 tr2 :
  first_signal (tr1 ++ tr2) =
    match first_signal tr1 with
    | Some first => Some first
    | None => first_signal tr2
    end.
Proof.
  induction tr1 as [|[h|o] tr1 IH]; simpl; auto.
Qed.

(** The future handed out by a call of the adapter, at any later time: it
    is settled when and only when the Operation has its terminal outcome,
    with that outcome, and it has then been fulfilled once. *)
Lemma future_tracks_operation (refs : nat) (before after : list (Event Result))
    (h : Handle) :
  let w0 := run before (fresh refs) in
  let w := run after (toSemiFuture h w0).2 in
  let p := semi_core (toSemiFuture h w0).1 in
  terminal (operation w) = first_signal (before ++ after) ∧
  cores w !! p = Some (expected (operation w)).
Proof.
  intros w0 w p.
  assert (Hw0 : consistent w0) by apply consistent_run, consistent_fresh.
  assert (Hw : consistent w)
    by apply consistent_run, consistent_toSemiFuture, Hw0.
  split.
  - subst w. rewrite terminal_run, terminal_toSemiFuture.
    subst w0. rewrite terminal_run. simpl.
    rewrite first_signal_app.
    destruct (first_signal before); reflexivity.
  - destruct Hw as (Hin & _). apply Hin.
    pose proof (next_core_run after (toSemiFuture h w0).2) as Hle.
    rewrite next_core_toSemiFuture in Hle.
    change p with (next_core w0). fold w in Hle. lia.
Qed.

Lemma toFuture_unfold (h : Handle) w :
  toFuture h w = (toFuture_semi (toSemiFuture h w).1, (toSemiFuture h w).2).
Proof. unfold toFuture. destruct (toSemiFuture h w). reflexivity. Qed.

Lemma future_poll (refs : nat) (before after : list (Event Result)) (h : Handle) :
  let w0 := run before (fresh refs) in
  let w := run after (toFuture h w0).2 in
  let fut := (toFuture h w0).1 in
  poll w fut = settle <$> first_signal (before ++ after) ∧
  fulfilled_times w fut =
    Some (match first_signal (before ++ after) with Some _ => 1 | None => 0 end).
Proof.
  intros w0 w fut. subst w fut. rewrite toFuture_unfold.
  destruct (future_tracks_operation refs before after h) as [Hterm Hcore].
  fold w0 in Hterm, Hcore.
  unfold poll, fulfilled_times.
  change (core (toFuture_semi ?f, ?w).1) with (semi_core f).
  change ((toFuture_semi (toSemiFuture h w0).1, (toSemiFuture h w0).2).2)
    with (toSemiFuture h w0).2.
  rewrite Hcore, <- Hterm.
  generalize (operation (run after (toSemiFuture h w0).2)). intros op.
  unfold expected. destruct (terminal op); split; reflexivity.
Qed.

(** C2: take any history of one Operation: adapter calls and terminal
    signals [before], one more adapter call through either kind of handle,
    and any events [after].  The future returned by that call is settled
    exactly when the Operation has reached its terminal outcome; it then
    holds the success payload as its value, or a typed error, and its
    promise has been fulfilled once and no more.  The overloads taking an
    owning handle and a plain pointer hand out futures that behave alike. *)
Theorem adapter_settles_exactly_once
    (refs : nat) (before after : list (Event Result)) (h : Handle)
    (v : Result) (reason : FailureReason) (message : string) :
  let w0 := run before (fresh refs) in
  let outcome := first_signal (before ++ after) in
  let w := run after (toFuture h w0).2 in
  let fut := (toFuture h w0).1 in
  terminal (operation w) = outcome ∧
  poll w fut = settle <$> outcome ∧
  fulfilled_times w fut = Some (match outcome with Some _ => 1 | None => 0 end) ∧
  poll_semi (run after (toSemiFuture h w0).2) (toSemiFuture h w0).1
    = settle <$> outcome ∧
  settle (Success v) = Value v ∧
  settle (Result := Result) (Failure reason message) = Error reason message ∧
  poll (run after (toFuture Owning w0).2) (toFuture Owning w0).1
    = poll (run after (toFuture Raw w0).2) (toFuture Raw w0).1 ∧
  fulfilled_times (run after (toFuture Owning w0).2) (toFuture Owning w0).1
    = fulfilled_times (run after (toFuture Raw w0).2) (toFuture Raw w0).1.
Proof.
  intros w0 outcome w fut.
  destruct (future_poll refs before after h) as [Hpoll Hcount].
  destruct (future_poll refs before after Owning) as [Hpoll_o Hcount_o].
  destruct (future_poll refs before after Raw) as [Hpoll_r Hcount_r].
  destruct (future_tracks_operation refs before after h) as [Hterm Hcore].
  fold w0 in Hpoll, Hcount, Hpoll_o, Hcount_o, Hpoll_r, Hcount_r, Hterm, Hcore.
  fold outcome in Hpoll, Hcount, Hpoll_o, Hcount_o, Hpoll_r, Hcount_r, Hterm.
  assert (Hw : w = run after (toSemiFuture h w0).2).
  { subst w. rewrite toFuture_unfold. reflexivity. }
  split; [rewrite Hw; exact Hterm|].
  split; [exact Hpoll|].
  split; [exact Hcount|].
  split.
  { unfold poll_semi. rewrite Hcore. unfold expected. rewrite Hterm.
    destruct outcome; reflexivity. }
  split; [reflexivity|].
  split; [reflexivity|].
  split; congruence.
Qed.

(** C3: when the Operation has already reached its terminal outcome [o]
    at the time the adapter is called, the future returned by the call is
    settled with that stored outcome as soon as the call returns, fulfilled
    once, and it stays so whatever happens afterwards. *)
Theorem adapter_after_completion_settles
    (refs : nat) (before after : list (Event Result)) (o : Outcome Result)
    (h : Handle) :
  terminal (operation (run before (fresh refs))) = Some o →
  let w0 := run before (fresh refs) in
  let fut := (toFuture h w0).1 in
  poll (toFuture h w0).2 fut = Some (settle o) ∧
  fulfilled_times (toFuture h w0).2 fut = Some 1 ∧
  poll (run after (toFuture h w0).2) fut = Some (settle o) ∧
  fulfilled_times (run after (toFuture h w0).2) fut = Some 1.
Proof.
  intros Hdone w0 fut.
  assert (Hfirst : first_signal before = Some o).
  { rewrite terminal_run in Hdone. exact Hdone. }
  destruct (future_poll refs before [] h) as [Hnow Hnow1].
  destruct (future_poll refs before after h) as [Hlater Hlater1].
  rewrite first_signal_app, Hfirst in Hnow, Hnow1, Hlater, Hlater1.
  repeat split; assumption.
Qed.

(** C4: when the first terminal signal of the Operation is a cancellation,
    the future returned by the adapter, whether the adapter was called
    before or after the cancellation, is settled with an error whose reason
    is CANCELLED, fulfilled once; it holds no value, and CANCELLED differs
    from TIMEOUT, DATABASE_ERROR and BAD_USAGE. *)
Theorem cancelled_operation_settles_cancelled
    (refs : nat) (before after : list (Event Result)) (h : Handle)
    (message : string) :
  first_signal (before ++ after) = Some (Cancellation message) →
  let w0 := run before (fresh refs) in
  let w := run after (toFuture h w0).2 in
  let fut := (toFuture h w0).1 in
  poll w fut = Some (Error CANCELLED message) ∧
  fulfilled_times w fut = Some 1 ∧
  (∀ v : Result, poll w fut ≠ Some (Value v)) ∧
  CANCELLED ≠ TIMEOUT ∧ CANCELLED ≠ DATABASE_ERROR ∧ CANCELLED ≠ BAD_USAGE.
Proof.
  intros Hcancel w0 w fut.
  destruct (future_poll refs before after h) as [Hpoll Hcount].
  rewrite Hcancel in Hpoll, Hcount.
  fold w0 in Hpoll, Hcount. fold w fut in Hpoll, Hcount.
  split; [exact Hpoll|].
  split; [exact Hcount|].
  split; [intros v; rewrite Hpoll; discriminate|].
  repeat split; discriminate.
Qed.

End Adapter_facts.

Section PassThrough_facts.
Import db mysql_client.
(** The result types of DbResult.h. *)
Context {ConnectResult DbQueryResult DbMultiQueryResult : Type}.

(** C7: the overloads of [toFuture] that take a semi-future are identity
    adaptations: for a semi-future of [ConnectResult], [DbQueryResult] or
    [DbMultiQueryResult], in every state of the promise store, the future
    returned settles with the outcome the semi-future settles with: the
    same value, the same error, or nothing yet, now and after any further
    events. *)
Theorem toFuture_semi_same_outcome
    (wc : World ConnectResult) (wq : World DbQueryResult)
    (wm : World DbMultiQueryResult) (fut : SemiFuture) :
  poll wc (toFuture_semi fut) = poll_semi wc fut ∧
  poll wq (toFuture_semi fut) = poll_semi wq fut ∧
  poll wm (toFuture_semi fut) = poll_semi wm fut ∧
  (∀ tr : list (Event ConnectResult),
     poll (run tr wc) (toFuture_semi fut) = poll_semi (run tr wc) fut) ∧
  (∀ tr : list (Event DbQueryResult),
     poll (run tr wq) (toFuture_semi fut) = poll_semi (run tr wq) fut) ∧
  (∀ tr : list (Event DbMultiQueryResult),
     poll (run tr wm) (toFuture_semi fut) = poll_semi (run tr wm) fut).
Proof. repeat split. Qed.

End PassThrough_facts.

(** Witnesses and a run of the adapter on concrete histories. *)

Section Adapter_examples.
Import db mysql_client.

Lemma adapter_after_completion_settles_witness :
  terminal (operation (run [Signal (Success 5)] (fresh (Result := nat) 1))) = Some (Success 5) ∧
  poll (toFuture Raw (run [Signal (Success 5)] (fresh (Result := nat) 1))).2
       (toFuture Raw (run [Signal (Success 5)] (fresh (Result := nat) 1))).1
    = Some (Value 5).
Proof.
  split; [reflexivity|].
  exact (proj1 (@adapter_after_completion_settles nat 1
                  [Signal (Success 5)] [] (Success 5) Raw eq_refl)).
Defined.

Lemma cancelled_operation_settles_cancelled_witness :
  first_signal ([Adapt Owning] ++ [Signal (Cancellation "stop"); Signal (Success 5)])
    = Some (Cancellation "stop") ∧
  poll (run [Signal (Cancellation "stop"); Signal (Success 5)]
          (toFuture Raw (run [Adapt Owning] (fresh (Result := nat) 1))).2)
       (toFuture Raw (run [Adapt Owning] (fresh (Result := nat) 1))).1
    = Some (Error CANCELLED "stop").
Proof.
  split; [reflexivity|].
  exact (proj1 (@cancelled_operation_settles_cancelled nat 1
                  [Adapt Owning]
                  [Signal (Cancellation "stop"); Signal (Success 5)]
                  Raw "stop" eq_refl)).
Defined.

(** The two kinds of handle differ in the references only: the plain
    pointer overload takes a reference of its own, the owning overload uses
    the one it was given; both let go of it when the outcome is delivered. *)
Example adapter_reference_balance :
  strong_refs (operation (run [Adapt Raw] (fresh (Result := nat) 1))) = 2 ∧
  strong_refs (operation (run [Adapt Raw; Signal (Success 5)]
                            (fresh (Result := nat) 1))) = 1 ∧
  strong_refs (operation (run [Adapt Owning] (fresh (Result := nat) 2))) = 2 ∧
  strong_refs (operation (run [Adapt Owning; Signal (Success 5)]
                            (fresh (Result := nat) 2))) = 1.
Proof. repeat split. Qed.

(** Two adapter calls around a failure, then a late second signal: both
    futures hold the failure, each fulfilled once. *)
Example adapter_history :
  let w := run [Adapt Owning; Signal (Failure DATABASE_ERROR "Access denied");
                Adapt Raw; Signal (Success 1)] (fresh (Result := nat) 1) in
  poll w {| core := 0 |} = Some (Error DATABASE_ERROR "Access denied") ∧
  poll w {| core := 1 |} = Some (Error DATABASE_ERROR "Access denied") ∧
  fulfilled_times w {| core := 0 |} = Some 1 ∧
  fulfilled_times w {| core := 1 |} = Some 1 ∧
  poll w {| core := 2 |} = None.
Proof. vm_compute. repeat split. Qed.

End Adapter_examples.

(** ** Completions running side by side *)

Section workers_facts.
Import db workers.
Local Open Scope N_scope.

Lemma read_write (k k' : CounterKind) (v : N) (c : SimpleDbCounter) :
  read k (write k' v c) = if decide (k = k') then v else read k c.
Proof. destruct k, k'; reflexivity. Qed.

Lemma owed_all_insert (k : CounterKind) (pool : list Thread) (tid : nat)
    (t t' : Thread) :
  pool !! tid = Some t →
  (owed_all k (<[tid := t']> pool) + owed k t
   = owed_all k pool + owed k t')%nat.
Proof.
  intros Hlook.
  apply list_elem_of_split_length in Hlook as (l1 & l2 & -> & ->).
  rewrite insert_app_r_alt by lia.
  rewrite Nat.sub_diag. simpl.
  unfold owed_all. rewrite !sum_list_with_app. simpl. lia.
Qed.

Lemma atomic_only_tail (i : Instr) (rest : list Instr) (r r' : N) :
  atomic_only {| code := i :: rest; reg := r |} →
  atomic_only {| code := rest; reg := r' |}.
Proof. unfold atomic_only; simpl. intros H. inversion H; assumption. Qed.

(** One step of any thread moves one owed increment into the counter, or
    does nothing. *)
Lemma step_conserves (k : CounterKind) (c : SimpleDbCounter)
    (pool : list Thread) (tid : nat) :
  Forall atomic_only pool →
  Forall atomic_only (step (c, pool) tid).2 ∧
  read k (step (c, pool) tid).1 + N.of_nat (owed_all k (step (c, pool) tid).2)
  = read k c + N.of_nat (owed_all k pool).
Proof.
  intros Hatomic. unfold step; simpl.
  destruct (pool !! tid) as [t|] eqn:Hlook; [|auto].
  destruct t as [[|i rest] r] eqn:Ht; simpl; [auto|].
  assert (Ht_atomic : atomic_only {| code := i :: rest; reg := r |}).
  { eapply Forall_lookup_1; eassumption. }
  assert (Hi : ∃ k', i = FetchAdd k').
  { unfold atomic_only in Ht_atomic; simpl in Ht_atomic.
    inversion Ht_atomic; assumption. }
  destruct Hi as [k' ->]. simpl.
  split.
  - apply Forall_insert; [assumption|].
    eapply atomic_only_tail, Ht_atomic.
  - pose proof (owed_all_insert k pool tid _
                  {| code := rest; reg := read k' c |} Hlook) as Hsum.
    unfold owed in Hsum at 1 2; simpl in Hsum.
    rewrite read_write.
    destruct (decide (k = k')) as [->|Hne].
    + rewrite filter_cons_True in Hsum
        by (simpl; apply bool_decide_eq_true; reflexivity).
      simpl in Hsum. fold (owed k' {| code := rest; reg := read k' c |}) in Hsum.
      lia.
    + rewrite filter_cons_False in Hsum
        by (simpl; rewrite bool_decide_eq_true; congruence).
      lia.
Qed.

Lemma run_conserves (k : CounterKind) (schedule : list nat)
    (c : SimpleDbCounter) (pool : list Thread) :
  Forall atomic_only pool →
  read k (run schedule (c, pool)).1
    + N.of_nat (owed_all k (run schedule (c, pool)).2)
  = read k c + N.of_nat (owed_all k pool).
Proof.
  revert c pool. induction schedule as [|tid schedule IH]; intros c pool Hatomic.
  - reflexivity.
  - change (run (tid :: schedule) (c, pool))
      with (run schedule (step (c, pool) tid)).
    destruct (step_conserves k c pool tid Hatomic) as [Hatomic' Hstep].
    destruct (step (c, pool) tid) as [c' pool'].
    rewrite IH by exact Hatomic'. exact Hstep.
Qed.

Lemma finished_owes_nothing (k : CounterKind) (pool : list Thread) :
  finished pool = true → owed_all k pool = 0%nat.
Proof.
  unfold finished, owed_all.
  induction pool as [|t pool IH]; simpl; [reflexivity|].
  intros Hfin. apply andb_prop in Hfin as [Ht Hpool].
  rewrite (IH Hpool). unfold owed.
  destruct (code t); [reflexivity | discriminate].
Qed.

Lemma completions_atomic (ks : list CounterKind) :
  Forall atomic_only (completion <$> ks).
Proof.
  apply Forall_fmap, Forall_forall. intros k _.
  unfold atomic_only; simpl. repeat constructor. exists k. reflexivity.
Qed.

Lemma completions_owed (k : CounterKind) (ks : list CounterKind) :
  owed_all k (completion <$> ks) = occurrences k ks.
Proof.
  unfold owed_all, occurrences.
  induction ks as [|k' ks IH]; [reflexivity|].
  rewrite fmap_cons.
  change (sum_list_with (owed k) (completion k' :: (completion <$> ks)))
    with (owed k (completion k') + sum_list_with (owed k) (completion <$> ks))%nat.
  rewrite IH. unfold owed, completion. cbn [code].
  destruct (decide (k' = k)) as [->|Hne].
  - rewrite (filter_cons_True _ (FetchAdd k))
      by (simpl; apply bool_decide_eq_true; reflexivity).
    rewrite (filter_cons_True _ k) by reflexivity.
    reflexivity.
  - rewrite (filter_cons_False _ (FetchAdd k'))
      by (simpl; rewrite bool_decide_eq_true; congruence).
    rewrite (filter_cons_False _ k') by assumption.
    reflexivity.
Qed.

Lemma occurrences_replicate (k : CounterKind) (n : nat) :
  occurrences k (replicate n k) = n.
Proof.
  unfold occurrences. induction n as [|n IH]; simpl; [reflexivity|].
  rewrite filter_cons_True by reflexivity. simpl. now rewrite IH.
Qed.

Lemma finished_app (pool1 pool2 : list Thread) :
  finished (pool1 ++ pool2) = finished pool1 && finished pool2.
Proof. unfold finished. apply forallb_app. Qed.

(** Running the threads one after the other, each once, finishes them
    all: the schedules considered below are not an empty family. *)
Lemma in_turn_finishes (done : list Thread) (ks : list CounterKind)
    (c : SimpleDbCounter) :
  finished done = true →
  finished (run (seq (length done) (length ks))
                (c, done ++ (completion <$> ks))).2 = true.
Proof.
  revert done c. induction ks as [|k ks IH]; intros done c Hdone.
  - simpl. rewrite app_nil_r. exact Hdone.
  - rewrite fmap_cons.
    change (seq (length done) (length (k :: ks)))
      with (length done :: seq (S (length done)) (length ks)).
    change (run (length done :: ?sched) ?st)
      with (run sched (step st (length done))).
    unfold step at 1. cbn [fst snd].
    rewrite list_lookup_middle by reflexivity.
    cbn [code completion exec reg].
    rewrite insert_app_r_alt by lia.
    rewrite Nat.sub_diag. cbn [insert list_insert].
    rewrite (cons_middle _ done), app_assoc.
    replace (S (length done))
      with (length (done ++ [{| code := []; reg := read k c |}]))
      by (rewrite length_app; simpl; lia).
    apply IH. rewrite finished_app, Hdone. reflexivity.
Qed.

(** C8: let one completion thread per Operation run side by side, each
    making the one atomic increment of the counter of its kind, under any
    schedule that lets every thread finish.  Then every counter has grown
    by exactly the number of completions of its kind: no increment is lost
    and none is made twice.  In particular [n] completions of one kind,
    starting from zero, leave that counter at [n]. *)
Theorem concurrent_completions_counted
    (ks : list CounterKind) (schedule : list nat) (c0 : SimpleDbCounter) :
  finished (run schedule (c0, completion <$> ks)).2 = true →
  ∀ k : CounterKind,
    read k (run schedule (c0, completion <$> ks)).1
      = read k c0 + N.of_nat (occurrences k ks) ∧
    (ks = replicate (length ks) k → read k c0 = 0 →
     read k (run schedule (c0, completion <$> ks)).1 = N.of_nat (length ks)).
Proof.
  intros Hfin k.
  pose proof (run_conserves k schedule c0 (completion <$> ks)
                (completions_atomic ks)) as Hinv.
  rewrite (finished_owes_nothing k _ Hfin), completions_owed in Hinv.
  rewrite N.add_0_r in Hinv.
  split; [exact Hinv|].
  intros Hsame Hzero. rewrite Hinv, Hzero, Hsame, occurrences_replicate.
  rewrite length_replicate. reflexivity.
Qed.

Lemma concurrent_completions_counted_witness :
  finished (run [2; 0; 1]%nat
              (zero, completion <$> replicate 3 SucceededQueries)).2 = true ∧
  read SucceededQueries
    (run [2; 0; 1]%nat
       (zero, completion <$> replicate 3 SucceededQueries)).1 = 3.
Proof.
  split; [reflexivity|].
  exact (proj2 (concurrent_completions_counted
                  (replicate 3 SucceededQueries)
                  [2; 0; 1]%nat zero eq_refl SucceededQueries)
               eq_refl eq_refl).
Defined.

(** The schedule is what the atomic increment is indifferent to: with the
    increment split into a read and a write, two completions can finish
    with the counter at one. *)
Example racy_increment_loses_update :
  let final := run [0; 1; 0; 1]%nat
                 (zero, [racy_completion SucceededQueries;
                         racy_completion SucceededQueries]) in
  finished final.2 = true ∧ read SucceededQueries final.1 = 1.
Proof. split; reflexivity. Qed.

End workers_facts.

(** * Further properties of the sources *)

(** ** ExponentialMovingAverage: what a sequence of samples can and cannot do *)

Section EMA_sequences.
Import db.
Local Open Scope float_scope.

Lemma mul_nan_r (x : float) : x * nan = nan.
Proof.
  apply Prim2SF_inj. rewrite mul_spec.
  change (Prim2SF nan) with S754_nan.
  destruct (Prim2SF x); reflexivity.
Qed.

Lemma mul_nan_l (x : float) : nan * x = nan.
Proof.
  apply Prim2SF_inj. rewrite mul_spec.
  change (Prim2SF nan) with S754_nan. reflexivity.
Qed.

Lemma add_nan_r (x : float) : x + nan = nan.
Proof.
  apply Prim2SF_inj. rewrite add_spec.
  change (Prim2SF nan) with S754_nan.
  destruct (Prim2SF x); reflexivity.
Qed.

Lemma add_nan_l (x : float) : nan + x = nan.
Proof.
  apply Prim2SF_inj. rewrite add_spec.
  change (Prim2SF nan) with S754_nan. reflexivity.
Qed.

Lemma addSample_nan (e : ExponentialMovingAverage) :
  currentValue_ (addSample nan e) = nan.
Proof.
  unfold addSample. destruct (hasRegisteredFirstSample_ e); simpl.
  - rewrite mul_nan_r, add_nan_l. reflexivity.
  - reflexivity.
Qed.

Lemma addSample_stays_nan (x : float) (e : ExponentialMovingAverage) :
  hasRegisteredFirstSample_ e = true → currentValue_ e = nan →
  currentValue_ (addSample x e) = nan.
Proof.
  intros Hseeded Hnan. rewrite (addSample_seeded x e Hseeded). simpl.
  rewrite Hnan, mul_nan_r, add_nan_r. reflexivity.
Qed.

Lemma addSamples_stay_nan (xs : list float) (e : ExponentialMovingAverage) :
  hasRegisteredFirstSample_ e = true → currentValue_ e = nan →
  currentValue_ (addSamples xs e) = nan.
Proof.
  revert e. induction xs as [|x xs IH]; intros e Hseeded Hnan; [exact Hnan|].
  change (addSamples (x :: xs) e) with (addSamples xs (addSample x e)).
  apply IH; [apply addSample_marks | apply addSample_stays_nan; assumption].
Qed.

Lemma addSamples_app (xs ys : list float) (e : ExponentialMovingAverage) :
  addSamples (xs ++ ys) e = addSamples ys (addSamples xs e).
Proof. unfold addSamples. apply fold_left_app. Qed.

(** X1: a NaN sample is never forgotten.  Whatever the smoothing factor,
    whatever was added before and whatever is added after it, once a NaN has
    been passed to [addSample] the current value is NaN. *)
Theorem addSample_nan_is_absorbing
    (alpha init : float) (before after : list float) :
  currentValue_
    (addSamples (before ++ nan :: after) (construct alpha init)) = nan.
Proof.
  rewrite addSamples_app.
  change (addSamples (nan :: after) ?e) with (addSamples after (addSample nan e)).
  apply addSamples_stay_nan; [apply addSample_marks | apply addSample_nan].
Qed.

(** X2: the value [currentValue_] has before the first sample is never
    observable afterwards: two accumulators with the same smoothing factor
    that have received the same non-empty sequence of samples are equal,
    whatever their initial values were, and so are the values they showed on
    the way. *)
Theorem addSamples_forget_initial_value
    (alpha init init' x : float) (xs : list float) :
  addSamples (x :: xs) (construct alpha init)
    = addSamples (x :: xs) (construct alpha init') ∧
  currentValues (x :: xs) (construct alpha init)
    = currentValues (x :: xs) (construct alpha init').
Proof. split; reflexivity. Qed.

(** X3: over any sequence of calls the smoothing factor stays the one given
    to the constructor, and [hasRegisteredFirstSample_] is set exactly when
    at least one sample has been added. *)
Theorem addSamples_invariants (alpha init : float) (xs : list float) :
  smoothingFactor_ (addSamples xs (construct alpha init)) = alpha ∧
  hasRegisteredFirstSample_ (addSamples xs (construct alpha init))
    = match xs with [] => false | _ :: _ => true end.
Proof.
  destruct xs as [|x xs]; [split; reflexivity|].
  change (addSamples (x :: xs) ?e) with (addSamples xs (addSample x e)).
  destruct (addSamples_keeps xs (addSample x (construct alpha init))
              (addSample_marks x _)) as [Hflag Halpha].
  rewrite Hflag, Halpha. split; reflexivity.
Qed.

End EMA_sequences.

(** ** Display names *)

Section names_facts.
Import db.
Local Open Scope Z_scope.

Lemma is_enumerator_cases (reason : FailureReason) :
  is_enumerator reason ∨ ¬ is_enumerator reason.
Proof.
  unfold is_enumerator, BAD_USAGE, TIMEOUT, CANCELLED, DATABASE_ERROR. lia.
Qed.

Lemma FailureString_enumerator_inj (a b : FailureReason) :
  is_enumerator a → is_enumerator b →
  FailureString a = FailureString b → a = b.
Proof.
  intros [-> | [-> | [-> | ->]]] [-> | [-> | [-> | ->]]] Heq;
    solve [reflexivity | discriminate Heq].
Qed.

(** X4: the name returned by [FailureString] tells the four reasons apart
    and never passes off an invalid value as a valid one: two values get the
    same name exactly when they are the same value or both lie outside the
    enumeration; the sentinel is returned for the values outside the
    enumeration and for no other. *)
Theorem FailureString_separates (a b : FailureReason) :
  (FailureString a = FailureString b ↔
     a = b ∨ (¬ is_enumerator a ∧ ¬ is_enumerator b)) ∧
  (FailureString a = "(should not happen)" ↔ ¬ is_enumerator a).
Proof.
  split; [|apply FailureString_sentinel_iff].
  split.
  - intros Heq.
    destruct (is_enumerator_cases a) as [Ha|Ha],
             (is_enumerator_cases b) as [Hb|Hb].
    + left. apply FailureString_enumerator_inj; assumption.
    + exfalso. apply FailureString_outside in Hb. rewrite Hb in Heq.
      apply FailureString_sentinel_iff in Heq. tauto.
    + exfalso. apply FailureString_outside in Ha. rewrite Ha in Heq.
      symmetry in Heq. apply FailureString_sentinel_iff in Heq. tauto.
    + right. split; assumption.
  - intros [-> | [Ha Hb]]; [reflexivity|].
    rewrite (FailureString_outside a Ha), (FailureString_outside b Hb).
    reflexivity.
Qed.

(** X5: [toString] gives the eight operation types eight different
    names. *)
Theorem toString_inj (s t : OperationType) : toString s = toString t → s = t.
Proof. destruct s, t; intros Heq; solve [reflexivity | discriminate Heq]. Qed.

Lemma toString_inj_witness :
  toString Connect = toString Connect ∧ Connect = Connect.
Proof. split; [reflexivity|]. exact (toString_inj Connect Connect eq_refl). Defined.

Lemma toString_raw_outside (v : Z) :
  v < 0 ∨ 7 < v → toString_raw v = "(should not happen)".
Proof.
  intros Hout. unfold toString_raw, OperationType_value.
  repeat match goal with
         | |- context [(v =? ?n)] => destruct (Z.eqb_spec v n); [lia|]
         end.
  reflexivity.
Qed.

Lemma OperationType_value_range (t : OperationType) :
  0 ≤ OperationType_value t ≤ 7.
Proof. destruct t; simpl; lia. Qed.

Lemma OperationType_value_surj (v : Z) :
  0 ≤ v ≤ 7 → ∃ t, OperationType_value t = v.
Proof.
  intros Hv.
  assert (v = 0 ∨ v = 1 ∨ v = 2 ∨ v = 3 ∨ v = 4 ∨ v = 5 ∨ v = 6 ∨ v = 7)
    as [-> | [-> | [-> | [-> | [-> | [-> | [-> | ->]]]]]]] by lia.
  - exists None_; reflexivity.
  - exists Query; reflexivity.
  - exists MultiQuery; reflexivity.
  - exists MultiQueryStream; reflexivity.
  - exists Connect; reflexivity.
  - exists PoolConnect; reflexivity.
  - exists Locator; reflexivity.
  - exists TestDatabase; reflexivity.
Qed.

(** X6: read on the underlying integer, [toString] returns the name of the
    enumerator for each of the eight enumerator values, and it falls through
    to "(should not happen)" exactly for the integers that are not the value
    of an enumerator (those below 0 or above 7). *)
Theorem toString_raw_enumerators_and_sentinel (t : OperationType) (v : Z) :
  toString_raw (OperationType_value t) = toString t ∧
  toString t ≠ "(should not happen)"%string ∧
  (toString_raw v = "(should not happen)" ↔ v < 0 ∨ 7 < v).
Proof.
  split; [destruct t; reflexivity|].
  split; [destruct t; discriminate|].
  split; [|apply toString_raw_outside].
  intros Hs.
  destruct (decide (0 ≤ v ≤ 7)) as [Hin|Hout]; [|lia].
  exfalso. destruct (OperationType_value_surj v Hin) as [t' <-].
  destruct t'; discriminate Hs.
Qed.

End names_facts.

(** ** printStats: what the report tells, and repeated calls *)

Section printStats_more.
Import db.

Lemma printStats_logs (env : Env) :
  (printStats env).2 =
    {| self := self env; info_log := info_log env ++ [stats_text (self env)] |}.
Proof. reflexivity. Qed.

Lemma stats_text_lines (c : SimpleDbCounter) :
  lines (stats_text c) =
    [ "Client Stats";
      "Opened Connections " +:+ dec (opened_connections_ c);
      "Closed Connections " +:+ dec (closed_connections_ c);
      "Failed Queries " +:+ dec (failed_queries_ c);
      "Succeeded Queries " +:+ dec (succeeded_queries_ c);
      "Reused SSL Sessions " +:+ dec (reused_ssl_sessions_ c) ].
Proof.
  unfold stats_text.
  rewrite (lines_terminated "Client Stats") by reflexivity.
  rewrite !lines_counter_line by reflexivity.
  rewrite lines_last_counter_line by reflexivity.
  reflexivity.
Qed.

Lemma append_inv_head (s t t' : string) : s +:+ t = s +:+ t' → t = t'.
Proof.
  induction s as [|c s IH]; intros Heq; [exact Heq|].
  apply IH. change (String c (s +:+ t) = String c (s +:+ t')) in Heq.
  congruence.
Qed.

(** X7: the report loses nothing: when two calls of [printStats] log the
    same text, the two counters held the same five values. *)
Theorem printStats_report_determines_counters (env1 env2 : Env) :
  last (info_log (printStats env1).2) = last (info_log (printStats env2).2) →
  self env1 = self env2.
Proof.
  rewrite !printStats_logs. cbn [info_log]. rewrite !last_snoc.
  intros Heq. apply (inj Some) in Heq.
  assert (Hline : ∀ i : nat, lines (stats_text (self env1)) !! i
                             = lines (stats_text (self env2)) !! i)
    by (intros i; rewrite Heq; reflexivity).
  rewrite !stats_text_lines in Hline.
  pose proof (Hline 1%nat) as Ho. pose proof (Hline 2%nat) as Hc.
  pose proof (Hline 3%nat) as Hf. pose proof (Hline 4%nat) as Hs.
  pose proof (Hline 5%nat) as Hr.
  apply (inj Some), append_inv_head, dec_inj in Ho, Hc, Hf, Hs, Hr.
  destruct (self env1), (self env2); simpl in *. congruence.
Qed.

Lemma printStats_report_determines_counters_witness :
  let env := {| self := workers.zero; info_log := ["earlier entry"] |} in
  last (info_log (printStats env).2) = last (info_log (printStats env).2) ∧
  self env = self env.
Proof.
  split; [reflexivity|].
  exact (printStats_report_determines_counters _ _ eq_refl).
Defined.

(** X8: calling [printStats] [n] times in a row leaves the counter as it
    was and appends [n] copies of one and the same report to the log; the
    entries already in the log stay in place. *)
Theorem printStats_repeated (n : nat) (env : Env) :
  Nat.iter n (fun e => (printStats e).2) env =
    {| self := self env;
       info_log := info_log env ++ replicate n (stats_text (self env)) |}.
Proof.
  induction n as [|n IH].
  - simpl. rewrite app_nil_r. destruct env; reflexivity.
  - change (Nat.iter (S n) ?f env) with (f (Nat.iter n f env)).
    rewrite IH, printStats_logs. simpl.
    rewrite <- app_assoc, <- replicate_S_end. reflexivity.
Qed.

End printStats_more.

(** ** ConnectionContextBase::copy *)

Section copy_facts.
Import db.
Implicit Types (heap : gmap positive ConnectionContextBase).

(** X9: [copy] on a live object gives a new object at an address no
    object had before, with the three members of the original, and leaves
    every existing object as it was.  The copy is independent of the
    original: assigning members of the original afterwards, or destroying
    it, does not change the copy. *)
Theorem copy_is_independent heap (this : positive) (c : ConnectionContextBase) :
  heap !! this = Some c →
  ∃ p heap',
    copy this heap = Some (p, heap') ∧
    heap !! p = None ∧
    heap' !! p = Some c ∧
    (∀ q, q ≠ p → heap' !! q = heap !! q) ∧
    (∀ update : ConnectionContextBase → ConnectionContextBase,
       alter update this heap' !! p = Some c) ∧
    delete this heap' !! p = Some c.
Proof.
  intros Hlive. unfold copy. rewrite Hlive.
  set (p := fresh (dom heap)).
  assert (Hfresh : heap !! p = None).
  { apply not_elem_of_dom. apply is_fresh. }
  assert (Hne : this ≠ p) by (intros ->; congruence).
  eexists p, _. split; [reflexivity|].
  assert (Hcopy : {| isSslConnection := isSslConnection c;
                     sslSessionReused := sslSessionReused c;
                     endpointVersion := endpointVersion c |} = c)
    by (destruct c; reflexivity).
  rewrite Hcopy.
  repeat split.
  - exact Hfresh.
  - apply lookup_insert_eq.
  - intros q Hq. apply lookup_insert_ne. congruence.
  - intros update. rewrite lookup_alter_ne by exact Hne. apply lookup_insert_eq.
  - rewrite lookup_delete_ne by exact Hne. apply lookup_insert_eq.
Qed.

Lemma copy_is_independent_witness :
  let c := {| isSslConnection := true; sslSessionReused := false;
              endpointVersion := "8.0" |} in
  let heap : gmap positive ConnectionContextBase := {[ 1%positive := c ]} in
  heap !! 1%positive = Some c ∧
  ∃ p heap', copy 1%positive heap = Some (p, heap') ∧ heap !! p = None.
Proof.
  intros c heap.
  assert (Hlive : heap !! 1%positive = Some c) by reflexivity.
  split; [exact Hlive|].
  destruct (copy_is_independent heap 1%positive c Hlive)
    as (p & heap' & Hcopy & Hnew & _).
  exists p, heap'. split; assumption.
Defined.

End copy_facts.
